(** * CreditManager (src/src/core/credit_manager.py): a shallow embedding

    The singleton usage ledger of the marketing automation platform:
    totals, two rolling 60-second windows (request times and token
    batches), a per-component table, cost constants and a periodic
    snapshot of [get_usage_stats] to disk.

    Modelling choices:
    - Python floats for timestamps, waits and costs are exact rationals
      [Q]; Python ints are [Z].
    - [time.time()] reads a mockable clock held in the world; [time.sleep d]
      advances it by [d] and is logged; a negative [d] makes Python raise
      [ValueError], modelled as [None].
    - The dict [self.component_usage] is a heap object: the ledger holds its
      location, and [get_usage_stats] returns that same location (it does
      not copy the dict), so aliasing is visible.
    - [_save_usage] appends the snapshot it serialises to a log of writes;
      its [try/except] means it never fails.
    - The [threading.RLock] is not modelled: calls run one after another. *)

From Stdlib Require Import ZArith QArith Lqa List Lia.
From stdpp Require Import base gmap strings list.
Import ListNotations.

(** ** Data model *)

(** [{'calls': 0, 'tokens': 0, 'errors': 0}] *)
Record usage := mk_usage { calls : Z; tokens : Z; errors : Z }.

Definition loc := positive.

Record ledger := mk_ledger {
  total_requests : Z;
  total_tokens : Z;
  total_input_tokens : Z;
  total_output_tokens : Z;
  rpm_limit : Z;
  tpm_limit : Z;
  call_times : list Q;
  token_times : list (Q * Z);
  component_usage : loc;   (* the dict object [self.component_usage] *)
  cost_per_million_input : Q;
  cost_per_million_output : Q
}.

(** The dict returned by [get_usage_stats]. *)
Record stats := mk_stats {
  s_total_requests : Z;
  s_total_tokens : Z;
  s_estimated_cost : Q;
  s_component_breakdown : loc;
  s_current_rpm : Z
}.

(** [{'timestamp': ..., 'stats': ...}] as [json.dump] writes it: the
    breakdown is serialised from the heap at write time. *)
Record snapshot := mk_snapshot {
  snap_timestamp : Q;
  snap_stats : stats;
  snap_breakdown : gmap string usage
}.

Record world := mk_world {
  clock : Q;
  heap : gmap loc (gmap string usage);
  sleeps : list Q;
  saves : list snapshot;
  cm : ledger
}.

(** ** World and ledger updates *)

Definition set_cm (l : ledger) (w : world) : world :=
  mk_world (clock w) (heap w) (sleeps w) (saves w) l.

Definition set_clock (c : Q) (w : world) : world :=
  mk_world c (heap w) (sleeps w) (saves w) (cm w).

Definition with_call_times (ct : list Q) (l : ledger) : ledger :=
  mk_ledger (total_requests l) (total_tokens l) (total_input_tokens l)
    (total_output_tokens l) (rpm_limit l) (tpm_limit l) ct (token_times l)
    (component_usage l) (cost_per_million_input l) (cost_per_million_output l).

Definition with_token_times (tt : list (Q * Z)) (l : ledger) : ledger :=
  mk_ledger (total_requests l) (total_tokens l) (total_input_tokens l)
    (total_output_tokens l) (rpm_limit l) (tpm_limit l) (call_times l) tt
    (component_usage l) (cost_per_million_input l) (cost_per_million_output l).

Definition set_call_times (ct : list Q) (w : world) : world :=
  set_cm (with_call_times ct (cm w)) w.

Definition set_token_times (tt : list (Q * Z)) (w : world) : world :=
  set_cm (with_token_times tt (cm w)) w.

(** Reading a dict object; only allocated locations are ever read. *)
Definition deref (w : world) (p : loc) : gmap string usage :=
  from_option id ∅ (heap w !! p).

Definition heap_write (p : loc) (t : gmap string usage) (w : world) : world :=
  mk_world (clock w) (<[p := t]> (heap w)) (sleeps w) (saves w) (cm w).

(** ** Clock *)

Open Scope Q_scope.

Definition Qlt_bool (x y : Q) : bool := negb (Qle_bool y x).

(** [time.time()] *)
Definition time (w : world) : Q := clock w.

(** [time.sleep(d)]: [ValueError] on a negative length. *)
Definition sleep (d : Q) (w : world) : option world :=
  if Qlt_bool d 0 then None
  else Some (mk_world (clock w + d) (heap w) (sleeps w ++ [d]) (saves w) (cm w)).

(** ** Windows *)

(** The filter condition [now - t < 60]. *)
Definition young (now t : Q) : bool := Qlt_bool (now - t) 60.

(** [[t for t in self.call_times if now - t < 60]] *)
Definition prune_calls (now : Q) (l : list Q) : list Q := List.filter (young now) l.

(** [[(t, tokens) for t, tokens in self.token_times if now - t < 60]] *)
Definition prune_tokens (now : Q) (l : list (Q * Z)) : list (Q * Z) :=
  List.filter (fun e => young now (fst e)) l.

(** [sum(tokens for _, tokens in self.token_times)] *)
Definition sum_tokens (l : list (Q * Z)) : Z :=
  fold_left (fun acc e => (acc + snd e)%Z) l 0%Z.

(** [min(t for t, _ in self.token_times) if self.token_times else now] *)
Definition oldest_time (now : Q) (l : list (Q * Z)) : Q :=
  match l with
  | [] => now
  | (t, _) :: rest =>
      fold_left (fun m e => if Qlt_bool (fst e) m then fst e else m) rest t
  end.

(** ** [check_rate_limit] *)

(** Lines 88-95: the RPM check, starting from the pruned [call_times];
    returns the (possibly updated) [now] and world.  [self.call_times[0]]
    on an empty list raises [IndexError] ([None]). *)
Definition rpm_step (now : Q) (w : world) : option (Q * world) :=
  let ct := call_times (cm w) in
  if (rpm_limit (cm w) <=? Z.of_nat (length ct))%Z then
    match ct with
    | [] => None
    | t0 :: _ =>
        let wait_time := 60 - (now - t0) + 1 in
        if Qlt_bool 0 wait_time then
          w' ← sleep wait_time w;
          let now' := time w' in
          Some (now', set_call_times (prune_calls now' (call_times (cm w'))) w')
        else Some (now, w)
    end
  else Some (now, w).

(** Lines 97-105: the TPM check at the current [now]. *)
Definition tpm_step (now : Q) (w : world) : option world :=
  let w := set_token_times (prune_tokens now (token_times (cm w))) w in
  let recent_tokens := sum_tokens (token_times (cm w)) in
  if Qle_bool (inject_Z (tpm_limit (cm w)) * 0.9) (inject_Z recent_tokens) then
    let oldest := oldest_time now (token_times (cm w)) in
    let wait_time := 60 - (now - oldest) + 1 in
    sleep wait_time w
  else Some w.

(** [check_rate_limit] (it always returns [True] when it returns). *)
Definition check_rate_limit (w : world) : option world :=
  let now := time w in
  let w := set_call_times (prune_calls now (call_times (cm w))) w in
  '(now, w) ← rpm_step now w;
  tpm_step now w.

(** [track_request_start] *)
Definition track_request_start (w : world) : option world :=
  w ← check_rate_limit w;
  Some (set_call_times (call_times (cm w) ++ [time w]) w).

(** ** [get_usage_stats] and [_save_usage] *)

Definition get_usage_stats (w : world) : stats :=
  let l := cm w in
  let input_cost := (inject_Z (total_input_tokens l) * cost_per_million_input l) / 1000000 in
  let output_cost := (inject_Z (total_output_tokens l) * cost_per_million_output l) / 1000000 in
  mk_stats (total_requests l) (total_tokens l) (input_cost + output_cost)
    (component_usage l)
    (Z.of_nat (length (List.filter (fun t => Qlt_bool (time w - t) 60) (call_times l)))).

Definition _save_usage (w : world) : world :=
  let s := get_usage_stats w in
  mk_world (clock w) (heap w) (sleeps w)
    (saves w ++ [mk_snapshot (time w) s (deref w (s_component_breakdown s))]) (cm w).

(** ** [track_usage] *)

Definition add_success (input_tokens output_tokens : Z) (now : Q) (l : ledger) : ledger :=
  mk_ledger (total_requests l + 1)%Z (total_tokens l + (input_tokens + output_tokens))%Z
    (total_input_tokens l + input_tokens)%Z (total_output_tokens l + output_tokens)%Z
    (rpm_limit l) (tpm_limit l) (call_times l)
    (token_times l ++ [(now, (input_tokens + output_tokens)%Z)])
    (component_usage l) (cost_per_million_input l) (cost_per_million_output l).

Definition track_usage (input_tokens output_tokens : Z) (component : string)
    (success : bool) (w : world) : world :=
  let p := component_usage (cm w) in
  let tbl := deref w p in
  let w1 :=
    if success then
      let w' := set_cm (add_success input_tokens output_tokens (time w) (cm w)) w in
      match tbl !! component with
      | Some u =>
          heap_write p (<[component := mk_usage (calls u + 1)%Z
                          (tokens u + (input_tokens + output_tokens))%Z (errors u)]> tbl) w'
      | None => w'
      end
    else
      match tbl !! component with
      | Some u => heap_write p (<[component := mk_usage (calls u) (tokens u) (errors u + 1)%Z]> tbl) w
      | None => w
      end in
  if (total_requests (cm w1) mod 10 =? 0)%Z then _save_usage w1 else w1.

(** ** [__init__] *)

Definition zero_usage : usage := mk_usage 0 0 0.

Definition init_component_usage : gmap string usage :=
  <["collector" := zero_usage]> (<["insight_agent" := zero_usage]>
  (<["optimizer" := zero_usage]> (<["analyzer" := zero_usage]>
  (<["dspy" := zero_usage]> ∅)))).

Definition init_loc : loc := 1%positive.

Definition init_ledger : ledger :=
  mk_ledger 0 0 0 0 15 1000000 [] [] init_loc 0.075 0.30.

(** A freshly constructed [CreditManager], with the clock at [c0]. *)
Definition fresh (c0 : Q) : world :=
  mk_world c0 {[ init_loc := init_component_usage ]} [] [] init_ledger.

(** Reachable states: any sequence of API calls, with the wall clock
    moving arbitrarily between them. *)
Inductive step : world -> world -> Prop :=
| step_request_start w w' : track_request_start w = Some w' -> step w w'
| step_track_usage w i o c s : step w (track_usage i o c s w)
| step_tick w d : step w (set_clock (clock w + d) w).

Inductive reachable : world -> Prop :=
| reachable_fresh c0 : reachable (fresh c0)
| reachable_step w w' : reachable w -> step w w' -> reachable w'.

Definition registered : list string :=
  ["collector"; "insight_agent"; "optimizer"; "analyzer"; "dspy"].

(** ** Basic facts: comparisons, windows, sleep *)

Lemma Qlt_bool_iff x y : Qlt_bool x y = true <-> x < y.
Proof.
  unfold Qlt_bool. rewrite negb_true_iff. split; intros H.
  - apply Qnot_le_lt. intros Hle. apply Qle_bool_iff in Hle. congruence.
  - destruct (Qle_bool y x) eqn:E; [|reflexivity].
    apply Qle_bool_iff in E. exfalso. apply (Qlt_not_le x y); assumption.
Qed.

Lemma Qlt_bool_false x y : Qlt_bool x y = false <-> y <= x.
Proof.
  unfold Qlt_bool. rewrite negb_false_iff. apply Qle_bool_iff.
Qed.

Lemma young_iff now t : young now t = true <-> now - t < 60.
Proof. apply Qlt_bool_iff. Qed.

Lemma young_false now t : young now t = false <-> 60 <= now - t.
Proof. apply Qlt_bool_false. Qed.

Lemma prune_calls_In now l t : In t (prune_calls now l) <-> In t l /\ now - t < 60.
Proof. unfold prune_calls. rewrite filter_In, young_iff. tauto. Qed.

Lemma prune_tokens_In now l t n :
  In (t, n) (prune_tokens now l) <-> In (t, n) l /\ now - t < 60.
Proof. unfold prune_tokens. rewrite filter_In, young_iff. tauto. Qed.

Lemma prune_calls_Forall now l : Forall (fun t => now - t < 60) (prune_calls now l).
Proof. apply List.Forall_forall. intros t Ht. apply prune_calls_In in Ht. tauto. Qed.

Lemma prune_tokens_Forall now l :
  Forall (fun e => now - fst e < 60) (prune_tokens now l).
Proof.
  apply List.Forall_forall. intros [t n] Ht. apply prune_tokens_In in Ht. simpl. tauto.
Qed.

Lemma prune_calls_length now l : (length (prune_calls now l) <= length l)%nat.
Proof. apply List.filter_length_le. Qed.

Lemma sum_tokens_acc l a :
  fold_left (fun acc e => (acc + snd e)%Z) l a = (a + sum_tokens l)%Z.
Proof.
  unfold sum_tokens. revert a. induction l as [|e l IH]; intros a; simpl.
  - lia.
  - rewrite (IH (a + snd e)%Z), (IH (0 + snd e)%Z). lia.
Qed.

Lemma sum_tokens_app l1 l2 : sum_tokens (l1 ++ l2) = (sum_tokens l1 + sum_tokens l2)%Z.
Proof.
  unfold sum_tokens at 1. rewrite fold_left_app.
  change (fold_left _ l1 0%Z) with (sum_tokens l1). apply sum_tokens_acc.
Qed.

Lemma sum_tokens_cons e l : sum_tokens (e :: l) = (snd e + sum_tokens l)%Z.
Proof. unfold sum_tokens at 1. simpl. rewrite sum_tokens_acc. lia. Qed.

Lemma oldest_fold (rest : list (Q * Z)) (m : Q) :
  fold_left (fun m (e : Q * Z) => if Qlt_bool (fst e) m then fst e else m) rest m = m \/
  In (fold_left (fun m (e : Q * Z) => if Qlt_bool (fst e) m then fst e else m) rest m)
    (map fst rest).
Proof.
  revert m. induction rest as [|e rest IH]; intros m; simpl; [now left|].
  destruct (Qlt_bool (fst e) m).
  - destruct (IH (fst e)) as [H|H]; right.
    + rewrite H. now left.
    + now right.
  - destruct (IH m) as [H|H]; [now left|right; now right].
Qed.

Lemma oldest_time_cases now l : oldest_time now l = now \/ In (oldest_time now l) (map fst l).
Proof.
  destruct l as [|[t n] rest]; simpl; [now left|].
  destruct (oldest_fold rest t) as [H|H]; right.
  - rewrite H. now left.
  - now right.
Qed.

Lemma sleep_Some d w w' :
  sleep d w = Some w' <->
  0 <= d /\ w' = mk_world (clock w + d) (heap w) (sleeps w ++ [d]) (saves w) (cm w).
Proof.
  unfold sleep. destruct (Qlt_bool d 0) eqn:E.
  - apply Qlt_bool_iff in E. split; [discriminate|]. intros [H _].
    exfalso. apply (Qlt_not_le d 0); assumption.
  - apply Qlt_bool_false in E. split.
    + intros H. injection H as <-. auto.
    + intros [_ ->]. reflexivity.
Qed.

Lemma sleep_positive d w : 0 < d -> sleep d w =
  Some (mk_world (clock w + d) (heap w) (sleeps w ++ [d]) (saves w) (cm w)).
Proof. intros H. apply sleep_Some. split; [apply Qlt_le_weak|]; auto. Qed.

(** ** What [check_rate_limit] does *)

Definition all_positive (ds : list Q) : Prop := Forall (fun d => 0 < d) ds.

Lemma tpm_step_spec now w :
  exists w' ds, tpm_step now w = Some w' /\
    cm w' = with_token_times (prune_tokens now (token_times (cm w))) (cm w) /\
    heap w' = heap w /\ saves w' = saves w /\
    sleeps w' = sleeps w ++ ds /\ all_positive ds /\ clock w <= clock w'.
Proof.
  unfold tpm_step. simpl.
  set (tt := prune_tokens now (token_times (cm w))).
  destruct (Qle_bool _ _).
  - set (oldest := oldest_time now tt).
    assert (Hold : now - oldest < 60).
    { destruct (oldest_time_cases now tt) as [H|H]; fold oldest in H.
      - rewrite H. lra.
      - apply in_map_iff in H as [e [He Hin]].
        pose proof (prune_tokens_Forall now (token_times (cm w))) as HF.
        rewrite List.Forall_forall in HF. specialize (HF e Hin). rewrite <- He. exact HF. }
    assert (Hw : 0 < 60 - (now - oldest) + 1) by lra.
    rewrite (sleep_positive _ _ Hw).
    eexists _, [_]. simpl. repeat split; try reflexivity.
    + constructor; [exact Hw | constructor].
    + simpl. lra.
  - exists (set_token_times tt w), []. simpl. repeat split; try reflexivity.
    + rewrite app_nil_r. reflexivity.
    + constructor.
    + apply Qle_refl.
Qed.

Lemma rpm_step_spec now w :
  clock w = now ->
  Forall (fun t => now - t < 60) (call_times (cm w)) ->
  (0 < rpm_limit (cm w))%Z ->
  exists w' ds, rpm_step now w = Some (clock w', w') /\
    cm w' = with_call_times (call_times (cm w')) (cm w) /\
    heap w' = heap w /\ saves w' = saves w /\
    sleeps w' = sleeps w ++ ds /\ all_positive ds /\ clock w <= clock w' /\
    (Z.of_nat (length (call_times (cm w'))) <= Z.of_nat (length (call_times (cm w))))%Z /\
    ((rpm_limit (cm w) <= Z.of_nat (length (call_times (cm w))))%Z ->
     exists t0 rest, call_times (cm w) = t0 :: rest /\
       clock w' = now + (60 - (now - t0) + 1) /\
       (Z.of_nat (length (call_times (cm w'))) < Z.of_nat (length (call_times (cm w))))%Z).
Proof.
  intros Hnow Hyoung Hpos. subst now. unfold rpm_step.
  destruct (rpm_limit (cm w) <=? Z.of_nat (length (call_times (cm w))))%Z eqn:Hge.
  - apply Z.leb_le in Hge.
    destruct (call_times (cm w)) as [|t0 rest] eqn:Hct; [simpl in Hge; lia|].
    inversion Hyoung as [|? ? Ht0 Hrest]; subst.
    assert (Hw : 0 < 60 - (clock w - t0) + 1) by lra.
    assert (Hb : Qlt_bool 0 (60 - (clock w - t0) + 1) = true) by (apply Qlt_bool_iff; exact Hw).
    rewrite Hb, (sleep_positive _ _ Hw). simpl.
    set (now' := clock w + (60 - (clock w - t0) + 1)).
    assert (Hold : young now' t0 = false).
    { apply young_false. unfold now'. lra. }
    set (w1 := mk_world now' (heap w) (sleeps w ++ [60 - (clock w - t0) + 1]) (saves w) (cm w)).
    exists (set_call_times (prune_calls now' (call_times (cm w1))) w1),
           [60 - (clock w - t0) + 1].
    simpl. rewrite Hct. unfold prune_calls. simpl. rewrite Hold.
    pose proof (List.filter_length_le (young now') rest) as Hlen.
    repeat split; try reflexivity.
    + constructor; [exact Hw | constructor].
    + unfold now'. lra.
    + simpl. lia.
    + intros _. exists t0, rest. repeat split; try reflexivity. simpl. lia.
  - apply Z.leb_gt in Hge.
    exists w, []. repeat split; try reflexivity.
    + destruct w as [c h sl sv [a b c' d e f g i j k m]]. reflexivity.
    + rewrite app_nil_r. reflexivity.
    + constructor.
    + apply Qle_refl.
    + intros H. lia.
Qed.

(** [l'] differs from [l] at most in its two windows. *)
Definition windows_only (l l' : ledger) : Prop :=
  total_requests l' = total_requests l /\ total_tokens l' = total_tokens l /\
  total_input_tokens l' = total_input_tokens l /\
  total_output_tokens l' = total_output_tokens l /\
  rpm_limit l' = rpm_limit l /\ tpm_limit l' = tpm_limit l /\
  component_usage l' = component_usage l /\
  cost_per_million_input l' = cost_per_million_input l /\
  cost_per_million_output l' = cost_per_million_output l.

Lemma windows_only_trans l1 l2 l3 :
  windows_only l1 l2 -> windows_only l2 l3 -> windows_only l1 l3.
Proof. unfold windows_only. intuition congruence. Qed.

Lemma windows_only_call_times ct l : windows_only l (with_call_times ct l).
Proof. repeat split. Qed.

Lemma windows_only_token_times tt l : windows_only l (with_token_times tt l).
Proof. repeat split. Qed.

Lemma check_rate_limit_spec w :
  (0 < rpm_limit (cm w))%Z ->
  exists w' ds, check_rate_limit w = Some w' /\
    windows_only (cm w) (cm w') /\
    heap w' = heap w /\ saves w' = saves w /\
    sleeps w' = sleeps w ++ ds /\ all_positive ds /\ clock w <= clock w' /\
    ((Z.of_nat (length (call_times (cm w))) <= rpm_limit (cm w))%Z ->
     (Z.of_nat (length (call_times (cm w'))) < rpm_limit (cm w))%Z) /\
    ((rpm_limit (cm w) <= Z.of_nat (length (prune_calls (clock w) (call_times (cm w)))))%Z ->
     exists t0 rest, prune_calls (clock w) (call_times (cm w)) = t0 :: rest /\
       clock w + (60 - (clock w - t0) + 1) <= clock w').
Proof.
  intros Hpos. unfold check_rate_limit.
  set (w0 := set_call_times (prune_calls (time w) (call_times (cm w))) w).
  destruct (rpm_step_spec (time w) w0) as
    (w1 & ds1 & Hr & Hcm1 & Hh1 & Hs1 & Hsl1 & Hp1 & Hc1 & Hlen1 & Hge1);
    [reflexivity | apply prune_calls_Forall | exact Hpos |].
  rewrite Hr. simpl.
  destruct (tpm_step_spec (clock w1) w1) as
    (w2 & ds2 & Ht & Hcm2 & Hh2 & Hs2 & Hsl2 & Hp2 & Hc2).
  exists w2, (ds1 ++ ds2). split; [exact Ht|].
  assert (Hct2 : call_times (cm w2) = call_times (cm w1)) by (rewrite Hcm2; reflexivity).
  assert (Hrpm1 : rpm_limit (cm w1) = rpm_limit (cm w)) by (rewrite Hcm1; reflexivity).
  pose proof (prune_calls_length (time w) (call_times (cm w))) as Hpl.
  split.
  { apply (windows_only_trans _ (cm w0)); [apply windows_only_call_times|].
    apply (windows_only_trans _ (cm w1)).
    + rewrite Hcm1. apply windows_only_call_times.
    + rewrite Hcm2. apply windows_only_token_times. }
  repeat split.
  - rewrite Hh2, Hh1. reflexivity.
  - rewrite Hs2, Hs1. reflexivity.
  - rewrite Hsl2, Hsl1, app_assoc. reflexivity.
  - apply Forall_app. split; assumption.
  - apply (Qle_trans _ (clock w1)); [exact Hc1 | exact Hc2].
  - intros Hle. rewrite Hct2.
    destruct (Z.le_gt_cases (rpm_limit (cm w0))
                (Z.of_nat (length (call_times (cm w0))))) as [Hge|Hlt].
    + destruct (Hge1 Hge) as (t0 & rest & _ & _ & Hlt1).
      simpl in Hlt1, Hge. lia.
    + simpl in Hlen1, Hlt. lia.
  - intros Hge. destruct (Hge1 Hge) as (t0 & rest & Hct & Hclk & _).
    exists t0, rest. split; [exact Hct|].
    unfold time in Hclk. rewrite <- Hclk. exact Hc2.
Qed.

(** [track_request_start] appends the clock read after the checks. *)
Lemma track_request_start_spec w w1 :
  check_rate_limit w = Some w1 ->
  track_request_start w = Some (set_call_times (call_times (cm w1) ++ [clock w1]) w1).
Proof. intros H. unfold track_request_start. rewrite H. reflexivity. Qed.

(** ** What [track_usage] does *)

(** The per-component update of lines 132-137. *)
Definition component_update (input_tokens output_tokens : Z) (success : bool) (u : usage) : usage :=
  if success then mk_usage (calls u + 1)%Z (tokens u + (input_tokens + output_tokens))%Z (errors u)
  else mk_usage (calls u) (tokens u) (errors u + 1)%Z.

Definition table_after (input_tokens output_tokens : Z) (component : string) (success : bool)
    (tbl : gmap string usage) : gmap string usage :=
  match tbl !! component with
  | Some u => <[component := component_update input_tokens output_tokens success u]> tbl
  | None => tbl
  end.

Ltac track_usage_cases :=
  unfold track_usage;
  match goal with
  | |- context [?t !! ?c] => destruct (t !! c) eqn:?
  end;
  simpl;
  match goal with
  | |- context [(?n mod 10 =? 0)%Z] => destruct (n mod 10 =? 0)%Z eqn:?
  end;
  simpl.

Lemma track_usage_cm i o c s w :
  cm (track_usage i o c s w) = if s then add_success i o (clock w) (cm w) else cm w.
Proof. destruct s; track_usage_cases; reflexivity. Qed.

Lemma track_usage_clock i o c s w : clock (track_usage i o c s w) = clock w.
Proof. destruct s; track_usage_cases; reflexivity. Qed.

Lemma track_usage_sleeps i o c s w : sleeps (track_usage i o c s w) = sleeps w.
Proof. destruct s; track_usage_cases; reflexivity. Qed.

Lemma track_usage_heap i o c s w :
  heap (track_usage i o c s w) =
  match deref w (component_usage (cm w)) !! c with
  | Some _ => <[component_usage (cm w) :=
                table_after i o c s (deref w (component_usage (cm w)))]> (heap w)
  | None => heap w
  end.
Proof.
  unfold table_after. destruct s; track_usage_cases; rewrite ?Heqo; reflexivity.
Qed.

Lemma track_usage_deref i o c s w :
  deref (track_usage i o c s w) (component_usage (cm w)) =
  table_after i o c s (deref w (component_usage (cm w))).
Proof.
  unfold deref at 1. rewrite track_usage_heap. unfold table_after.
  destruct (deref w (component_usage (cm w)) !! c) eqn:E.
  - rewrite lookup_insert_eq. reflexivity.
  - reflexivity.
Qed.

Lemma track_usage_saves i o c s w :
  let w' := track_usage i o c s w in
  saves w' = saves w ++
    (if (total_requests (cm w') mod 10 =? 0)%Z
     then [mk_snapshot (clock w') (get_usage_stats w')
             (deref w' (component_usage (cm w')))]
     else []).
Proof.
  cbv zeta. destruct s; track_usage_cases;
    rewrite ?Heqb; rewrite ?app_nil_r; reflexivity.
Qed.

(** ** Invariant of reachable states *)

Definition ledger_inv (w : world) : Prop :=
  rpm_limit (cm w) = 15%Z /\ tpm_limit (cm w) = 1000000%Z /\
  component_usage (cm w) = init_loc /\
  cost_per_million_input (cm w) = 0.075 /\ cost_per_million_output (cm w) = 0.30 /\
  (Z.of_nat (length (call_times (cm w))) <= 15)%Z /\
  total_tokens (cm w) = (total_input_tokens (cm w) + total_output_tokens (cm w))%Z /\
  (forall k, is_Some (deref w init_loc !! k) <-> In k registered).

Lemma init_component_usage_keys k :
  is_Some (init_component_usage !! k) <-> In k registered.
Proof.
  unfold init_component_usage, registered.
  rewrite !lookup_insert, lookup_empty.
  repeat case_decide; subst; simpl; split; intros Hx;
    try (eexists; reflexivity); try (destruct Hx; discriminate);
    intuition congruence.
Qed.

Lemma table_after_keys i o c s (tbl : gmap string usage) k :
  is_Some (table_after i o c s tbl !! k) <-> is_Some (tbl !! k).
Proof.
  unfold table_after. destruct (tbl !! c) eqn:E; [|reflexivity].
  rewrite lookup_insert. case_decide; subst.
  - rewrite E. split; intros _; eexists; reflexivity.
  - reflexivity.
Qed.

Lemma deref_heap_eq w w' p : heap w' = heap w -> deref w' p = deref w p.
Proof. intros H. unfold deref. rewrite H. reflexivity. Qed.

Lemma ledger_inv_fresh c0 : ledger_inv (fresh c0).
Proof.
  repeat split; simpl; try lia; intros; unfold deref; simpl;
    rewrite ?lookup_singleton_eq; simpl; apply init_component_usage_keys; assumption.
Qed.

Lemma ledger_inv_request_start w w' :
  ledger_inv w -> track_request_start w = Some w' -> ledger_inv w'.
Proof.
  intros (Hr & Ht & Hc & Hi & Ho & Hl & Htot & Hk) Hs.
  destruct (check_rate_limit_spec w) as
    (w1 & ds & Hc1 & Hwo & Hh & _ & _ & _ & _ & Hlen & _); [lia|].
  rewrite (track_request_start_spec _ _ Hc1) in Hs. injection Hs as <-.
  destruct Hwo as (E1 & E2 & E3 & E4 & E5 & E6 & E7 & E8 & E9).
  unfold ledger_inv. simpl. rewrite length_app. simpl.
  repeat split; try congruence.
  - specialize (Hlen ltac:(lia)). lia.
  - intros Hx. apply Hk. unfold deref in *. simpl in Hx. rewrite Hh in Hx. exact Hx.
  - intros Hx. unfold deref. simpl. rewrite Hh. apply Hk. exact Hx.
Qed.

Lemma ledger_inv_track_usage i o c s w :
  ledger_inv w -> ledger_inv (track_usage i o c s w).
Proof.
  intros (Hr & Ht & Hc & Hi & Ho & Hl & Htot & Hk).
  assert (Hkeys : forall k, is_Some (deref (track_usage i o c s w) init_loc !! k) <->
                            In k registered).
  { intros k. rewrite <- Hc, track_usage_deref, table_after_keys, Hc. apply Hk. }
  unfold ledger_inv. rewrite !track_usage_cm.
  destruct s; simpl; repeat split; try assumption; try lia;
    intros; apply Hkeys; assumption.
Qed.

Lemma ledger_inv_step w w' : ledger_inv w -> step w w' -> ledger_inv w'.
Proof.
  intros Hinv Hs. destruct Hs as [w w' H | w i o c s | w d].
  - exact (ledger_inv_request_start _ _ Hinv H).
  - apply ledger_inv_track_usage. exact Hinv.
  - exact Hinv.
Qed.

Lemma reachable_inv w : reachable w -> ledger_inv w.
Proof.
  induction 1 as [c0 | w w' _ IH Hs].
  - apply ledger_inv_fresh.
  - exact (ledger_inv_step _ _ IH Hs).
Qed.

(** ** Further helpers for the claims *)

(** A sequence of successful [track_usage(i, o, component, True)] calls. *)
Fixpoint run_successes (reqs : list (Z * Z * string)) (w : world) : world :=
  match reqs with
  | [] => w
  | (i, o, c) :: rest => run_successes rest (track_usage i o c true w)
  end.

Definition sum_inputs (reqs : list (Z * Z * string)) : Z :=
  fold_right (fun r acc => (fst (fst r) + acc)%Z) 0%Z reqs.

Definition sum_outputs (reqs : list (Z * Z * string)) : Z :=
  fold_right (fun r acc => (snd (fst r) + acc)%Z) 0%Z reqs.

Definition sum_pairs (reqs : list (Z * Z * string)) : Z :=
  fold_right (fun r acc => (fst (fst r) + snd (fst r) + acc)%Z) 0%Z reqs.

Lemma run_successes_totals reqs w :
  let w' := run_successes reqs w in
  total_input_tokens (cm w') = (total_input_tokens (cm w) + sum_inputs reqs)%Z /\
  total_output_tokens (cm w') = (total_output_tokens (cm w) + sum_outputs reqs)%Z /\
  total_tokens (cm w') = (total_tokens (cm w) + sum_pairs reqs)%Z /\
  total_requests (cm w') = (total_requests (cm w) + Z.of_nat (length reqs))%Z.
Proof.
  revert w. induction reqs as [|[[i o] c] rest IH]; intros w; simpl.
  - lia.
  - destruct (IH (track_usage i o c true w)) as (H1 & H2 & H3 & H4).
    rewrite H1, H2, H3, H4, !track_usage_cm. simpl. lia.
Qed.

Lemma prune_calls_all now l :
  Forall (fun t => now - t < 60) l -> prune_calls now l = l.
Proof.
  induction 1 as [|t l Ht _ IH]; [reflexivity|].
  unfold prune_calls in *. simpl.
  assert (Hy : young now t = true) by (apply young_iff; exact Ht).
  rewrite Hy, IH. reflexivity.
Qed.

(** ** C1: accounting additivity *)

(** C1: from a fresh ledger, after any finite sequence of successful
    [track_usage] calls with token pairs [(i_k, o_k)], the input, output
    and total token counters are the sums of the [i_k], the [o_k] and the
    [i_k + o_k], and [total_requests] is the number of calls. *)
Theorem accounting_additivity (c0 : Q) (reqs : list (Z * Z * string)) :
  let w := run_successes reqs (fresh c0) in
  total_input_tokens (cm w) = sum_inputs reqs /\
  total_output_tokens (cm w) = sum_outputs reqs /\
  total_tokens (cm w) = sum_pairs reqs /\
  total_requests (cm w) = Z.of_nat (length reqs).
Proof.
  cbv zeta. destruct (run_successes_totals reqs (fresh c0)) as (H1 & H2 & H3 & H4).
  rewrite H1, H2, H3, H4. simpl. lia.
Qed.

(** ** C2: snapshot cadence *)

(** C2 (as stated, refuted): on a fresh ledger the failed call
    [track_usage(0, 0, 'optimizer', False)] leaves [total_requests] at 0
    and still writes a snapshot, since [0 % 10 == 0]. *)
Lemma snapshot_on_failed_call :
  let w := fresh 0 in
  let w' := track_usage 0 0 "optimizer" false w in
  total_requests (cm w') = total_requests (cm w) /\
  saves w = [] /\ length (saves w') = 1%nat.
Proof. vm_compute. repeat split. Qed.

(** C2 (amended): every [track_usage] call, successful or failed, ends
    with the check [total_requests % 10 == 0]; a snapshot is written exactly
    when it holds after the call.  A successful call adds one to
    [total_requests], a failed one leaves it unchanged. *)
Theorem snapshot_cadence i o c s w :
  let w' := track_usage i o c s w in
  total_requests (cm w') = (total_requests (cm w) + if s then 1 else 0)%Z /\
  saves w' = saves w ++
    (if (total_requests (cm w') mod 10 =? 0)%Z
     then [mk_snapshot (clock w') (get_usage_stats w')
             (deref w' (component_usage (cm w')))]
     else []).
Proof.
  cbv zeta. split.
  - rewrite track_usage_cm. destruct s; simpl; lia.
  - apply track_usage_saves.
Qed.

(** ** C3: admission blocking *)

(** C3: in every reachable state, when [track_request_start] returns, the
    request events younger than 60 seconds at the moment the new event is
    appended are fewer than [rpm_limit]; and when the window already holds
    at least 15 events, all from the last second, the call returns no
    earlier than 59 seconds later. *)
Theorem admission_blocking w w' :
  reachable w -> track_request_start w = Some w' ->
  (exists w1, check_rate_limit w = Some w1 /\
     w' = set_call_times (call_times (cm w1) ++ [time w1]) w1 /\
     (Z.of_nat (length (prune_calls (time w1) (call_times (cm w1)))) < rpm_limit (cm w1))%Z) /\
  ((15 <= Z.of_nat (length (call_times (cm w))))%Z ->
   Forall (fun t => clock w - t <= 1) (call_times (cm w)) ->
   clock w + 59 <= clock w').
Proof.
  intros Hreach Hs.
  pose proof (reachable_inv w Hreach) as (Hr & _ & _ & _ & _ & Hl & _).
  destruct (check_rate_limit_spec w) as
    (w1 & ds & Hc1 & Hwo & _ & _ & _ & _ & Hclk & Hlen & Hwait); [lia|].
  rewrite (track_request_start_spec _ _ Hc1) in Hs. injection Hs as <-.
  destruct Hwo as (_ & _ & _ & _ & Erpm & _).
  split.
  - exists w1. split; [exact Hc1|]. split; [reflexivity|].
    pose proof (prune_calls_length (time w1) (call_times (cm w1))) as Hp.
    specialize (Hlen ltac:(lia)). lia.
  - intros H15 Hrecent.
    assert (Hall : prune_calls (clock w) (call_times (cm w)) = call_times (cm w)).
    { apply prune_calls_all. eapply Forall_impl; [exact Hrecent|].
      intros t Ht. simpl in Ht. lra. }
    destruct Hwait as (t0 & rest & Hct & Hle); [rewrite Hall; lia|].
    rewrite Hall in Hct. rewrite Hct in Hrecent.
    inversion Hrecent as [|? ? Ht0 _]; subst.
    simpl. lra.
Qed.

(** [n] admissions, the clock moving by 1/20 s after each. *)
Fixpoint admits (n : nat) (w : world) : option world :=
  match n with
  | O => Some w
  | S n => w1 ← track_request_start w; admits n (set_clock (clock w1 + (1 # 20)) w1)
  end.

Lemma admits_reachable n w w' : reachable w -> admits n w = Some w' -> reachable w'.
Proof.
  revert w. induction n as [|n IH]; intros w Hr H; simpl in H.
  - injection H as <-. exact Hr.
  - destruct (track_request_start w) as [w1|] eqn:E; [|discriminate]. simpl in H.
    apply (IH _ (reachable_step _ _ (reachable_step _ _ Hr (step_request_start _ _ E))
                   (step_tick w1 (1 # 20))) H).
Qed.

(** 15 admissions within 0.75 s of a fresh ledger started at time 0. *)
Definition burst_world : world :=
  from_option id (fresh 0) (admits 15 (fresh 0)).

(** The 16th admission. *)
Definition burst_next : world :=
  from_option id burst_world (track_request_start burst_world).

Lemma recent_check now l :
  forallb (fun t => Qle_bool (now - t) 1) l = true -> Forall (fun t => now - t <= 1) l.
Proof.
  intros H. apply List.Forall_forall. intros t Ht.
  rewrite List.forallb_forall in H. apply Qle_bool_iff. exact (H t Ht).
Qed.

Lemma admission_blocking_witness :
  reachable burst_world /\ track_request_start burst_world = Some burst_next /\
  clock burst_world + 59 <= clock burst_next.
Proof.
  assert (Hr : reachable burst_world).
  { apply (admits_reachable 15 (fresh 0)); [apply reachable_fresh|].
    vm_compute. reflexivity. }
  assert (Hs : track_request_start burst_world = Some burst_next)
    by (vm_compute; reflexivity).
  split; [exact Hr|]. split; [exact Hs|].
  apply (proj2 (admission_blocking burst_world burst_next Hr Hs)).
  - vm_compute. intros H. discriminate H.
  - apply recent_check. vm_compute. reflexivity.
Defined.

(** ** C9: sleeps are never negative, [track_request_start] never raises *)

(** C9: in every reachable state, [check_rate_limit] returns normally and
    every duration it passes to [time.sleep] is positive (the RPM branch is
    guarded by [wait_time > 0]; in the TPM branch the oldest retained token
    event is younger than 60 seconds, so the wait exceeds 1); hence
    [track_request_start] returns normally too. *)
Theorem sleeps_positive w :
  reachable w ->
  (exists w' ds, check_rate_limit w = Some w' /\
     sleeps w' = sleeps w ++ ds /\ Forall (fun d => 0 < d) ds) /\
  (exists w', track_request_start w = Some w').
Proof.
  intros Hreach.
  pose proof (reachable_inv w Hreach) as (Hr & _).
  destruct (check_rate_limit_spec w) as
    (w1 & ds & Hc1 & _ & _ & _ & Hsl & Hpos & _); [lia|].
  split.
  - exists w1, ds. auto.
  - eexists. apply track_request_start_spec. exact Hc1.
Qed.

Lemma sleeps_positive_witness :
  reachable burst_world /\
  (exists w' ds, check_rate_limit burst_world = Some w' /\
     sleeps w' = sleeps burst_world ++ ds /\ Forall (fun d => 0 < d) ds).
Proof.
  assert (Hr : reachable burst_world).
  { apply (admits_reachable 15 (fresh 0)); [apply reachable_fresh|].
    vm_compute. reflexivity. }
  split; [exact Hr|].
  exact (proj1 (sleeps_positive burst_world Hr)).
Defined.

(** ** C4: the returned breakdown *)

(** C4 (as stated, refuted): the [component_breakdown] returned on a fresh
    ledger is the ledger's own table: after a later
    [track_usage(100, 50, 'collector', True)] it reads [calls = 1]. *)
Lemma breakdown_not_a_copy :
  let w := fresh 0 in
  let st := get_usage_stats w in
  let w' := track_usage 100 50 "collector" true w in
  deref w (s_component_breakdown st) !! "collector" = Some (mk_usage 0 0 0) /\
  deref w' (s_component_breakdown st) !! "collector" = Some (mk_usage 1 150 0).
Proof. vm_compute. split; reflexivity. Qed.

(** C4 (amended): [get_usage_stats] returns the internal per-component dict
    itself as [component_breakdown]; every later [track_usage] update of that
    table is seen through the returned value. *)
Theorem breakdown_is_live_table i o c s w :
  let st := get_usage_stats w in
  s_component_breakdown st = component_usage (cm w) /\
  deref (track_usage i o c s w) (s_component_breakdown st) =
  table_after i o c s (deref w (s_component_breakdown st)).
Proof. cbv zeta. split; [reflexivity|]. apply track_usage_deref. Qed.

(** ** C5: window pruning *)

Lemma prune_calls_insert now l1 l2 t :
  length (prune_calls now (l1 ++ t :: l2)) =
  (length (prune_calls now (l1 ++ l2)) + if young now t then 1 else 0)%nat.
Proof.
  unfold prune_calls. rewrite !List.filter_app. simpl.
  rewrite !length_app. destruct (young now t); simpl; lia.
Qed.

Lemma prune_tokens_insert now l1 l2 t n :
  sum_tokens (prune_tokens now (l1 ++ (t, n) :: l2)) =
  (sum_tokens (prune_tokens now (l1 ++ l2)) + if young now t then n else 0)%Z.
Proof.
  unfold prune_tokens. rewrite !List.filter_app. simpl.
  rewrite !sum_tokens_app. destruct (young now t); rewrite ?sum_tokens_cons; simpl; lia.
Qed.

(** C5: an event at time [t] is kept by the pruning of either window at
    time [now], and so counted in the request count, in the token sum and
    in [current_rpm], if and only if [now - t < 60]; after a prune every
    retained event is younger than 60 seconds. *)
Theorem window_pruning :
  (forall now l t, In t (prune_calls now l) <-> In t l /\ now - t < 60) /\
  (forall now l t n, In (t, n) (prune_tokens now l) <-> In (t, n) l /\ now - t < 60) /\
  (forall now l1 l2 t, now - t < 60 ->
     length (prune_calls now (l1 ++ t :: l2)) = S (length (prune_calls now (l1 ++ l2)))) /\
  (forall now l1 l2 t, 60 <= now - t ->
     length (prune_calls now (l1 ++ t :: l2)) = length (prune_calls now (l1 ++ l2))) /\
  (forall now l1 l2 t n, now - t < 60 ->
     sum_tokens (prune_tokens now (l1 ++ (t, n) :: l2)) =
     (sum_tokens (prune_tokens now (l1 ++ l2)) + n)%Z) /\
  (forall now l1 l2 t n, 60 <= now - t ->
     sum_tokens (prune_tokens now (l1 ++ (t, n) :: l2)) =
     sum_tokens (prune_tokens now (l1 ++ l2))) /\
  (forall w, s_current_rpm (get_usage_stats w) =
     Z.of_nat (length (prune_calls (clock w) (call_times (cm w))))) /\
  (forall now l, Forall (fun t => now - t < 60) (prune_calls now l)) /\
  (forall now l, Forall (fun e => now - fst e < 60) (prune_tokens now l)).
Proof.
  split; [exact prune_calls_In|].
  split; [exact prune_tokens_In|].
  split.
  { intros now l1 l2 t H. rewrite prune_calls_insert.
    apply young_iff in H. rewrite H. lia. }
  split.
  { intros now l1 l2 t H. rewrite prune_calls_insert.
    apply young_false in H. rewrite H. lia. }
  split.
  { intros now l1 l2 t n H. rewrite prune_tokens_insert.
    apply young_iff in H. rewrite H. reflexivity. }
  split.
  { intros now l1 l2 t n H. rewrite prune_tokens_insert.
    apply young_false in H. rewrite H. lia. }
  split; [reflexivity|].
  split; [exact prune_calls_Forall | exact prune_tokens_Forall].
Qed.

(** ** C6: unregistered component *)

Lemma unregistered_lookup w c :
  reachable w -> ~ In c registered -> deref w (component_usage (cm w)) !! c = None.
Proof.
  intros Hreach Hc.
  pose proof (reachable_inv w Hreach) as (_ & _ & Hloc & _ & _ & _ & _ & Hk).
  rewrite Hloc. destruct (deref w init_loc !! c) eqn:E; [|reflexivity].
  exfalso. apply Hc, Hk. rewrite E. eexists. reflexivity.
Qed.

(** C6: a successful [track_usage] whose component is not one of the five
    registered keys updates the four totals and appends the token event
    exactly as a registered component would, leaves the per-component table
    unchanged (no entry for it is created), and returns normally. *)
Theorem unregistered_component i o c w :
  reachable w -> ~ In c registered ->
  let w' := track_usage i o c true w in
  total_requests (cm w') = (total_requests (cm w) + 1)%Z /\
  total_tokens (cm w') = (total_tokens (cm w) + (i + o))%Z /\
  total_input_tokens (cm w') = (total_input_tokens (cm w) + i)%Z /\
  total_output_tokens (cm w') = (total_output_tokens (cm w) + o)%Z /\
  token_times (cm w') = token_times (cm w) ++ [(time w, (i + o)%Z)] /\
  (forall c', cm w' = cm (track_usage i o c' true w)) /\
  deref w' (component_usage (cm w')) = deref w (component_usage (cm w)) /\
  deref w' (component_usage (cm w')) !! c = None.
Proof.
  intros Hreach Hc. cbv zeta.
  pose proof (unregistered_lookup w c Hreach Hc) as Hnone.
  assert (Hloc : component_usage (cm (track_usage i o c true w)) = component_usage (cm w))
    by (rewrite track_usage_cm; reflexivity).
  assert (Htbl : deref (track_usage i o c true w) (component_usage (cm (track_usage i o c true w)))
                 = deref w (component_usage (cm w))).
  { rewrite Hloc, track_usage_deref. unfold table_after. rewrite Hnone. reflexivity. }
  rewrite Htbl, Hnone. rewrite !track_usage_cm. simpl.
  repeat split; intros; rewrite ?track_usage_cm; reflexivity.
Qed.

Lemma unregistered_component_witness :
  let w' := track_usage 10 10 "unknown_tag" true (fresh 0) in
  total_requests (cm w') = 1%Z /\ deref w' (component_usage (cm w')) !! "unknown_tag" = None.
Proof.
  cbv zeta.
  destruct (unregistered_component 10 10 "unknown_tag" (fresh 0) (reachable_fresh 0))
    as (Hr & _ & _ & _ & _ & _ & _ & Hnone).
  - simpl. intros H. repeat (destruct H as [H|H]; [discriminate H|]). exact H.
  - split; [rewrite Hr; reflexivity | exact Hnone].
Defined.

(** ** C7: the failure path *)

(** C7: [track_usage(..., success=False)] changes no total, no window, no
    [calls] or [tokens] counter: the ledger record, the clock and the sleeps
    are unchanged and the table changes only by [errors + 1] for a
    registered component.  On a fresh ledger,
    [track_usage(0, 0, 'optimizer', False)] gives [optimizer.errors == 1]
    and [total_requests == 0]. *)
Theorem failure_frame :
  (forall i o c w,
     let w' := track_usage i o c false w in
     let tbl := deref w (component_usage (cm w)) in
     cm w' = cm w /\ clock w' = clock w /\ sleeps w' = sleeps w /\
     deref w' (component_usage (cm w)) =
       match tbl !! c with
       | Some u => <[c := mk_usage (calls u) (tokens u) (errors u + 1)%Z]> tbl
       | None => tbl
       end) /\
  (forall c0,
     let w' := track_usage 0 0 "optimizer" false (fresh c0) in
     deref w' init_loc !! "optimizer" = Some (mk_usage 0 0 1) /\
     total_requests (cm w') = 0%Z).
Proof.
  split.
  - intros i o c w. cbv zeta.
    rewrite track_usage_cm, track_usage_clock, track_usage_sleeps, track_usage_deref.
    repeat split.
  - intros c0. split; reflexivity.
Qed.

(** ** C8: cost formula *)

(** C8: in every reachable state [estimated_cost] is
    [total_input_tokens * 0.075 / 1_000_000 + total_output_tokens * 0.30 / 1_000_000];
    after [track_usage(1000, 500, 'x', True)] on a fresh ledger it equals
    [(1000 * 0.075 + 500 * 0.30) / 1_000_000]. *)
Theorem cost_formula w :
  reachable w ->
  s_estimated_cost (get_usage_stats w) =
    inject_Z (total_input_tokens (cm w)) * 0.075 / 1000000 +
    inject_Z (total_output_tokens (cm w)) * 0.30 / 1000000 /\
  (forall c0, s_estimated_cost (get_usage_stats (track_usage 1000 500 "x" true (fresh c0)))
              == (1000 * 0.075 + 500 * 0.30) / 1000000).
Proof.
  intros Hreach.
  pose proof (reachable_inv w Hreach) as (_ & _ & _ & Hi & Ho & _).
  split.
  - unfold get_usage_stats. simpl. rewrite Hi, Ho. reflexivity.
  - intros c0. vm_compute. reflexivity.
Qed.

Lemma cost_formula_witness :
  let w := track_usage 1000 500 "x" true (fresh 0) in
  reachable w /\
  s_estimated_cost (get_usage_stats w) =
    inject_Z (total_input_tokens (cm w)) * 0.075 / 1000000 +
    inject_Z (total_output_tokens (cm w)) * 0.30 / 1000000.
Proof.
  cbv zeta.
  assert (Hr : reachable (track_usage 1000 500 "x" true (fresh 0)))
    by exact (reachable_step _ _ (reachable_fresh 0) (step_track_usage _ 1000 500 "x" true)).
  split; [exact Hr|].
  exact (proj1 (cost_formula _ Hr)).
Defined.

(** ** C10: [total_tokens == total_input_tokens + total_output_tokens] *)

Lemma rpm_step_frame now w n w' :
  rpm_step now w = Some (n, w') -> windows_only (cm w) (cm w').
Proof.
  unfold rpm_step.
  destruct (_ <=? _)%Z; [|intros H; injection H as <- <-; repeat split].
  destruct (call_times (cm w)) as [|t0 rest]; [discriminate|].
  destruct (Qlt_bool 0 _); [|intros H; injection H as <- <-; repeat split].
  destruct (sleep _ w) as [w1|] eqn:E; simpl; [|discriminate].
  intros H. injection H as <- <-. apply sleep_Some in E as [_ ->].
  apply windows_only_call_times.
Qed.

Lemma check_rate_limit_frame w w' :
  check_rate_limit w = Some w' -> windows_only (cm w) (cm w').
Proof.
  unfold check_rate_limit.
  destruct (rpm_step _ _) as [[n w1]|] eqn:E; simpl; [|discriminate].
  intros H.
  destruct (tpm_step_spec n w1) as (w2 & _ & Ht & Hcm & _).
  rewrite Ht in H. injection H as <-.
  apply (windows_only_trans _ (cm (set_call_times (prune_calls (time w) (call_times (cm w))) w)));
    [apply windows_only_call_times|].
  apply (windows_only_trans _ (cm w1)); [exact (rpm_step_frame _ _ _ _ E)|].
  rewrite Hcm. apply windows_only_token_times.
Qed.

Definition tokens_consistent (w : world) : Prop :=
  total_tokens (cm w) = (total_input_tokens (cm w) + total_output_tokens (cm w))%Z.

(** C10: [total_tokens == total_input_tokens + total_output_tokens] holds
    on a fresh ledger, is preserved by [track_request_start] and by every
    [track_usage] call (any arguments, either [success]), and so holds in
    every reachable state; [get_usage_stats] only reads the state. *)
Theorem token_total_invariant :
  (forall c0, tokens_consistent (fresh c0)) /\
  (forall w w', tokens_consistent w -> track_request_start w = Some w' ->
     tokens_consistent w') /\
  (forall w i o c s, tokens_consistent w -> tokens_consistent (track_usage i o c s w)) /\
  (forall w, reachable w -> tokens_consistent w).
Proof.
  split; [reflexivity|].
  split.
  { intros w w' Hw Hs. unfold track_request_start in Hs.
    destruct (check_rate_limit w) as [w1|] eqn:E; simpl in Hs; [|discriminate].
    injection Hs as <-.
    destruct (check_rate_limit_frame _ _ E) as (_ & E2 & E3 & E4 & _).
    unfold tokens_consistent in *. simpl. congruence. }
  split.
  { intros w i o c s Hw. unfold tokens_consistent in *.
    rewrite !track_usage_cm. destruct s; simpl; lia. }
  intros w Hreach. apply (reachable_inv w Hreach).
Qed.

(** * Further properties of the ledger *)

(** A sequence of [track_usage(i, o, component, success)] calls. *)
Fixpoint run_usage (reqs : list (Z * Z * string * bool)) (w : world) : world :=
  match reqs with
  | [] => w
  | (i, o, c, s) :: rest => run_usage rest (track_usage i o c s w)
  end.

Definition successful (reqs : list (Z * Z * string * bool)) : list (Z * Z * string * bool) :=
  List.filter (fun (r : Z * Z * string * bool) => snd r) reqs.

Definition ok_inputs (reqs : list (Z * Z * string * bool)) : Z :=
  fold_right (fun (r : Z * Z * string * bool) (acc : Z) => (if snd r then fst (fst (fst r)) else 0) + acc)%Z 0%Z reqs.

Definition ok_outputs (reqs : list (Z * Z * string * bool)) : Z :=
  fold_right (fun (r : Z * Z * string * bool) (acc : Z) => (if snd r then snd (fst (fst r)) else 0) + acc)%Z 0%Z reqs.

Definition token_events (now : Q) (reqs : list (Z * Z * string * bool)) : list (Q * Z) :=
  map (fun (r : Z * Z * string * bool) => (now, (fst (fst (fst r)) + snd (fst (fst r)))%Z))
    (successful reqs).

(** X1: any sequence of [track_usage] calls, successful or failed: the
    totals grow by the sums over the successful calls only,
    [total_requests] by their number, one token event per successful call
    is appended (at the unchanged clock), and [call_times] is untouched. *)
Theorem run_usage_totals (reqs : list (Z * Z * string * bool)) (w : world) :
  let w' := run_usage reqs w in
  total_requests (cm w') = (total_requests (cm w) + Z.of_nat (length (successful reqs)))%Z /\
  total_input_tokens (cm w') = (total_input_tokens (cm w) + ok_inputs reqs)%Z /\
  total_output_tokens (cm w') = (total_output_tokens (cm w) + ok_outputs reqs)%Z /\
  total_tokens (cm w') = (total_tokens (cm w) + ok_inputs reqs + ok_outputs reqs)%Z /\
  token_times (cm w') = token_times (cm w) ++ token_events (clock w) reqs /\
  call_times (cm w') = call_times (cm w) /\
  clock w' = clock w.
Proof.
  revert w. induction reqs as [|[[[i o] c] s] rest IH]; intros w; cbv zeta.
  - unfold token_events, successful. simpl. rewrite app_nil_r. repeat split; lia.
  - destruct (IH (track_usage i o c s w)) as (H1 & H2 & H3 & H4 & H5 & H6 & H7).
    simpl run_usage. rewrite H1, H2, H3, H4, H5, H6, H7.
    rewrite !track_usage_cm, track_usage_clock.
    unfold token_events, successful. simpl.
    destruct s; simpl.
    + rewrite <- app_assoc. repeat split; try reflexivity; lia.
    + repeat split; try reflexivity; lia.
Qed.

(** X2: [total_requests] only counts successful calls, and successful calls
    write a snapshot every tenth request: after [n] successful calls from
    a state with [k >= 0] requests, [(k + n) / 10 - k / 10] snapshots have
    been written; from a fresh ledger, [n / 10]. *)
Theorem successes_snapshot_count (reqs : list (Z * Z * string)) (w : world) :
  (0 <= total_requests (cm w))%Z ->
  Z.of_nat (length (saves (run_successes reqs w))) =
  (Z.of_nat (length (saves w)) +
   (total_requests (cm w) + Z.of_nat (length reqs)) / 10 - total_requests (cm w) / 10)%Z.
Proof.
  revert w. induction reqs as [|[[i o] c] rest IH]; intros w Hk; simpl.
  - rewrite Z.add_0_r. lia.
  - assert (Hreq : total_requests (cm (track_usage i o c true w)) = (total_requests (cm w) + 1)%Z)
      by (rewrite track_usage_cm; reflexivity).
    rewrite IH by (rewrite Hreq; lia). rewrite Hreq.
    rewrite track_usage_saves, length_app. rewrite Hreq.
    destruct ((total_requests (cm w) + 1) mod 10 =? 0)%Z eqn:E.
    + apply Z.eqb_eq in E. simpl. Z.div_mod_to_equations. lia.
    + apply Z.eqb_neq in E. simpl. Z.div_mod_to_equations. lia.
Qed.

Lemma successes_snapshot_count_witness :
  Z.of_nat (length (saves (run_successes (repeat (1%Z, 1%Z, "dspy"%string) 25) (fresh 0)))) = 2%Z.
Proof.
  rewrite (successes_snapshot_count _ (fresh 0) ltac:(simpl; lia)).
  reflexivity.
Defined.

Lemma request_start_frame w w' :
  reachable w -> track_request_start w = Some w' ->
  saves w' = saves w /\ heap w' = heap w /\ windows_only (cm w) (cm w').
Proof.
  intros Hreach Hs.
  pose proof (reachable_inv w Hreach) as (Hr & _).
  destruct (check_rate_limit_spec w) as (w1 & ds & Hc1 & Hwo & Hh & Hsv & _); [lia|].
  rewrite (track_request_start_spec _ _ Hc1) in Hs. injection Hs as <-.
  simpl. split; [exact Hsv|]. split; [exact Hh|].
  apply (windows_only_trans _ (cm w1)); [exact Hwo | apply windows_only_call_times].
Qed.

(** X3: every snapshot ever written records a [total_requests] that is a
    multiple of 10. *)
Theorem snapshots_at_multiples_of_ten w :
  reachable w ->
  Forall (fun sn => (s_total_requests (snap_stats sn) mod 10 = 0)%Z) (saves w).
Proof.
  induction 1 as [c0 | w w' Hreach IH Hs]; [constructor|].
  destruct Hs as [w w' H | w i o c s | w d].
  - destruct (request_start_frame w w' Hreach H) as (-> & _). exact IH.
  - rewrite track_usage_saves.
    destruct (total_requests (cm (track_usage i o c s w)) mod 10 =? 0)%Z eqn:E.
    + apply Forall_app. split; [exact IH|]. constructor; [|constructor].
      simpl. apply Z.eqb_eq. exact E.
    + rewrite app_nil_r. exact IH.
  - exact IH.
Qed.

Lemma snapshots_at_multiples_of_ten_witness :
  Forall (fun sn => (s_total_requests (snap_stats sn) mod 10 = 0)%Z)
    (saves (track_usage 0 0 "optimizer" false (fresh 0))).
Proof.
  apply snapshots_at_multiples_of_ten.
  exact (reachable_step _ _ (reachable_fresh 0) (step_track_usage _ 0 0 "optimizer" false)).
Defined.

(** [calls] summed over a list of component names. *)
Definition sum_calls (keys : list string) (t : gmap string usage) : Z :=
  fold_right (fun k acc => (from_option calls 0 (t !! k) + acc)%Z) 0%Z keys.

Lemma sum_calls_insert_notin keys t c v :
  ~ In c keys -> sum_calls keys (<[c := v]> t) = sum_calls keys t.
Proof.
  induction keys as [|k keys IH]; intros Hc; simpl; [reflexivity|].
  rewrite lookup_insert_ne by (intros ->; apply Hc; now left).
  rewrite IH by (intros H; apply Hc; now right). reflexivity.
Qed.

Lemma sum_calls_insert keys t c u v :
  NoDup keys -> In c keys -> t !! c = Some u ->
  sum_calls keys (<[c := v]> t) = (sum_calls keys t + calls v - calls u)%Z.
Proof.
  induction keys as [|k keys IH]; intros Hnd Hc Hu; [destruct Hc|].
  apply NoDup_cons in Hnd as [Hk Hnd]. simpl.
  destruct (decide (k = c)) as [->|Hne].
  - rewrite lookup_insert_eq, Hu, sum_calls_insert_notin.
    + simpl. lia.
    + intros H. apply Hk. apply list_elem_of_In. exact H.
  - rewrite lookup_insert_ne by congruence.
    destruct Hc as [Hc|Hc]; [congruence|].
    rewrite (IH Hnd Hc Hu). lia.
Qed.

Lemma registered_NoDup : NoDup registered.
Proof. unfold registered. repeat constructor; set_solver. Qed.

(** The per-component table of the ledger. *)
Definition table (w : world) : gmap string usage := deref w init_loc.

(** X4: in every reachable state the [calls] and [errors] counters of
    the table are non-negative, and the [calls] of the five components
    add up to at most [total_requests]: every counted call is a counted
    request. *)
Theorem component_calls_bounded w :
  reachable w ->
  (sum_calls registered (table w) <= total_requests (cm w))%Z /\
  (forall k u, table w !! k = Some u -> 0 <= calls u /\ 0 <= errors u)%Z.
Proof.
  induction 1 as [c0 | w w' Hreach IH Hs].
  - split.
    + vm_compute. intros H. discriminate H.
    + intros k u Hk. unfold table, deref in Hk. simpl in Hk.
      rewrite lookup_singleton_eq in Hk. simpl in Hk.
      unfold init_component_usage in Hk. rewrite !lookup_insert in Hk.
      repeat case_decide; try (injection Hk as <-; simpl; lia).
      rewrite lookup_empty in Hk. discriminate.
  - destruct IH as [Hsum Hnn].
    pose proof (reachable_inv w Hreach) as (_ & _ & Hloc & _).
    destruct Hs as [w w' H | w i o c s | w d].
    + destruct (request_start_frame w w' Hreach H) as (_ & Hh & Hwo).
      destruct Hwo as (E1 & _).
      unfold table. rewrite (deref_heap_eq w w' _ Hh), E1. split; assumption.
    + assert (Ht : table (track_usage i o c s w) = table_after i o c s (table w)).
      { unfold table. rewrite <- Hloc. apply track_usage_deref. }
      assert (Hreq : (total_requests (cm w) <= total_requests (cm (track_usage i o c s w)))%Z)
        by (rewrite track_usage_cm; destruct s; simpl; lia).
      rewrite Ht. unfold table_after.
      destruct (table w !! c) as [u|] eqn:Hu; [|split; [lia | exact Hnn]].
      assert (Hc : In c registered).
      { apply (reachable_inv w Hreach). unfold table in Hu. rewrite Hu. eexists. reflexivity. }
      rewrite (sum_calls_insert _ _ _ u _ registered_NoDup Hc Hu).
      destruct (Hnn c u Hu) as [Hc0 He0].
      split.
      * rewrite track_usage_cm. unfold component_update. destruct s; simpl in *; lia.
      * intros k v Hk. rewrite lookup_insert in Hk. case_decide.
        -- injection Hk as <-. unfold component_update. destruct s; simpl; lia.
        -- exact (Hnn k v Hk).
    + split; assumption.
Qed.

Lemma component_calls_bounded_witness :
  let w := track_usage 100 50 "collector" true (fresh 0) in
  reachable w /\ (sum_calls registered (table w) <= total_requests (cm w))%Z.
Proof.
  cbv zeta.
  assert (Hr : reachable (track_usage 100 50 "collector" true (fresh 0)))
    by exact (reachable_step _ _ (reachable_fresh 0) (step_track_usage _ 100 50 "collector" true)).
  split; [exact Hr|]. exact (proj1 (component_calls_bounded _ Hr)).
Defined.

(** X5: in every reachable state [call_times] holds at most 15 entries
    and the [current_rpm] reported by [get_usage_stats] is at most 15. *)
Theorem current_rpm_bounded w :
  reachable w ->
  (Z.of_nat (length (call_times (cm w))) <= 15)%Z /\
  (0 <= s_current_rpm (get_usage_stats w) <= 15)%Z.
Proof.
  intros Hreach.
  pose proof (reachable_inv w Hreach) as (_ & _ & _ & _ & _ & Hl & _).
  pose proof (List.filter_length_le (fun t => Qlt_bool (time w - t) 60) (call_times (cm w))).
  simpl. split; [exact Hl | lia].
Qed.

Lemma current_rpm_bounded_witness :
  reachable burst_world /\ (0 <= s_current_rpm (get_usage_stats burst_world) <= 15)%Z.
Proof.
  assert (Hr : reachable burst_world).
  { apply (admits_reachable 15 (fresh 0)); [apply reachable_fresh|].
    vm_compute. reflexivity. }
  split; [exact Hr|]. exact (proj2 (current_rpm_bounded _ Hr)).
Defined.



Lemma oldest_fold_min (rest : list (Q * Z)) (m : Q) :
  let r := fold_left (fun m (e : Q * Z) => if Qlt_bool (fst e) m then fst e else m) rest m in
  r <= m /\ forall e, In e rest -> r <= fst e.
Proof.
  revert m. induction rest as [|e rest IH]; intros m; cbv zeta; simpl.
  - split; [apply Qle_refl | intros _ []].
  - set (m' := if Qlt_bool (fst e) m then fst e else m).
    assert (Hm : m' <= m /\ m' <= fst e).
    { unfold m'. destruct (Qlt_bool (fst e) m) eqn:E.
      - apply Qlt_bool_iff in E. split; [apply Qlt_le_weak; exact E | apply Qle_refl].
      - apply Qlt_bool_false in E. split; [apply Qle_refl | exact E]. }
    destruct (IH m') as [H1 H2]. split.
    + apply (Qle_trans _ m'); [exact H1 | apply Hm].
    + intros e' [<-|He'].
      * apply (Qle_trans _ m'); [exact H1 | apply Hm].
      * apply H2. exact He'.
Qed.

Lemma oldest_time_min now l e : In e l -> oldest_time now l <= fst e.
Proof.
  destruct l as [|[t n] rest]; [intros []|]. simpl.
  destruct (oldest_fold_min rest t) as [H1 H2].
  intros [<-|He]; [exact H1 | apply H2; exact He].
Qed.

(** X6: fast path of [check_rate_limit]: when the request window pruned
    at [now] holds fewer than [rpm_limit] events and the pruned token sum
    is below [0.9 * tpm_limit], it does not sleep: the clock, the sleeps,
    the heap and the snapshots are untouched and only the two windows are
    replaced by their pruned versions; [track_request_start] then appends
    the current time. *)
Theorem check_rate_limit_fast_path w :
  let now := clock w in
  let ct := prune_calls now (call_times (cm w)) in
  let tt := prune_tokens now (token_times (cm w)) in
  (Z.of_nat (length ct) < rpm_limit (cm w))%Z ->
  inject_Z (sum_tokens tt) < inject_Z (tpm_limit (cm w)) * 0.9 ->
  check_rate_limit w = Some (set_token_times tt (set_call_times ct w)) /\
  track_request_start w =
    Some (set_call_times (ct ++ [now]) (set_token_times tt (set_call_times ct w))).
Proof.
  cbv zeta. intros Hrpm Htpm.
  assert (Hc : check_rate_limit w =
               Some (set_token_times (prune_tokens (clock w) (token_times (cm w)))
                       (set_call_times (prune_calls (clock w) (call_times (cm w))) w))).
  { unfold check_rate_limit, rpm_step, time. simpl.
    destruct (rpm_limit (cm w) <=? _)%Z eqn:E; [apply Z.leb_le in E; lia|]. simpl.
    unfold tpm_step. simpl.
    destruct (Qle_bool _ _) eqn:Eq; [|reflexivity].
    apply Qle_bool_iff in Eq. exfalso. apply (Qlt_not_le _ _ Htpm). exact Eq. }
  split; [exact Hc|]. rewrite (track_request_start_spec _ _ Hc). reflexivity.
Qed.

Lemma check_rate_limit_fast_path_witness :
  check_rate_limit (fresh 0) = Some (set_token_times [] (set_call_times [] (fresh 0))).
Proof.
  apply (check_rate_limit_fast_path (fresh 0)).
  - vm_compute. reflexivity.
  - vm_compute. reflexivity.
Defined.

Lemma oldest_time_In now l : l <> [] -> In (oldest_time now l) (map fst l).
Proof.
  destruct l as [|[t n] rest]; [congruence|]. intros _. simpl.
  destruct (oldest_fold rest t) as [H|H]; [left; symmetry; exact H | right; exact H].
Qed.

(** X7: token branch of [check_rate_limit]: when the request window is
    below [rpm_limit] but the pruned token sum reaches [0.9 * tpm_limit],
    the call sleeps exactly [60 - (now - oldest) + 1], where [oldest] is the
    earliest retained token event, so it returns when that event is 61
    seconds old; the token window is not pruned again, so it still holds
    that event. *)
Theorem check_rate_limit_token_wait w :
  let now := clock w in
  let ct := prune_calls now (call_times (cm w)) in
  let tt := prune_tokens now (token_times (cm w)) in
  let oldest := oldest_time now tt in
  (Z.of_nat (length ct) < rpm_limit (cm w))%Z ->
  inject_Z (tpm_limit (cm w)) * 0.9 <= inject_Z (sum_tokens tt) ->
  check_rate_limit w =
    Some (mk_world (now + (60 - (now - oldest) + 1)) (heap w)
            (sleeps w ++ [60 - (now - oldest) + 1]) (saves w)
            (with_token_times tt (with_call_times ct (cm w)))) /\
  (now + (60 - (now - oldest) + 1)) - oldest == 61 /\
  (forall e, In e tt -> oldest <= fst e) /\
  (tt <> [] -> In oldest (map fst tt)).
Proof.
  cbv zeta. intros Hrpm Htpm.
  set (ct := prune_calls (clock w) (call_times (cm w))).
  set (tt := prune_tokens (clock w) (token_times (cm w))).
  set (oldest := oldest_time (clock w) tt).
  assert (Hold : clock w - oldest < 60).
  { destruct (oldest_time_cases (clock w) tt) as [H|H]; fold oldest in H.
    - rewrite H. lra.
    - apply in_map_iff in H as [e [He Hin]].
      pose proof (prune_tokens_Forall (clock w) (token_times (cm w))) as HF.
      rewrite List.Forall_forall in HF. specialize (HF e Hin). rewrite <- He. exact HF. }
  assert (Hw : 0 < 60 - (clock w - oldest) + 1) by lra.
  split.
  - unfold check_rate_limit, rpm_step, time. simpl. fold ct.
    destruct (rpm_limit (cm w) <=? _)%Z eqn:E; [apply Z.leb_le in E; unfold ct in *; lia|]. simpl.
    unfold tpm_step. simpl. fold tt.
    destruct (Qle_bool _ _) eqn:Eq.
    + fold oldest. rewrite (sleep_positive _ _ Hw). reflexivity.
    + apply Qle_bool_iff in Htpm. unfold ct, tt in *. simpl in *. congruence.
  - split; [lra|]. split.
    + intros e He. apply oldest_time_min. exact He.
    + apply oldest_time_In.
Qed.

(** A ledger that recorded 950000 tokens at time 0, admitted at time 10. *)
Definition heavy_world : world :=
  set_clock 10 (track_usage 950000 0 "dspy" true (fresh 0)).

Lemma check_rate_limit_token_wait_witness :
  exists w', check_rate_limit heavy_world = Some w'.
Proof.
  eexists. apply (check_rate_limit_token_wait heavy_world).
  - vm_compute. reflexivity.
  - vm_compute. intros H. discriminate H.
Defined.

(** * The caller [InsightAgent._generate_llm_insights]
    (src/src/agents/insight_agent.py): its use of the credit manager.

    Python text is modelled as ASCII strings. The Gemini call is an input:
    it raises, returns no response, or returns a response with a text.
    [json.loads] is a parameter of the section: it either raises
    [JSONDecodeError] ([None]) or returns a value that is a dict or not. *)

Inductive gen_result :=
| GenRaises
| GenNone
| GenText (text : string).

Inductive json_value_kind := JObject | JOther.

(** [str.isspace] on an ASCII character. *)
Definition is_space (c : Ascii.ascii) : bool :=
  let n := Ascii.nat_of_ascii c in
  (Nat.leb 9 n && Nat.leb n 13) || (Nat.leb 28 n && Nat.leb n 32).

Fixpoint lstrip_chars (l : list Ascii.ascii) : list Ascii.ascii :=
  match l with
  | c :: r => if is_space c then lstrip_chars r else l
  | [] => []
  end.

(** [str.strip()] *)
Definition strip (s : string) : string :=
  String.string_of_list_ascii
    (rev (lstrip_chars (rev (lstrip_chars (String.list_ascii_of_string s))))).

(** First index [>= i] at which [pat] occurs in [s] (offset [i]). *)
Fixpoint find_from (pat s : string) (i : nat) : option nat :=
  if String.prefix pat s then Some i
  else match s with
       | EmptyString => None
       | String _ r => find_from pat r (S i)
       end.

(** Last index at which [pat] occurs in [s] (offset [i]). *)
Fixpoint rfind_from (pat s : string) (i : nat) : option nat :=
  match s with
  | EmptyString => if String.prefix pat s then Some i else None
  | String _ r =>
      match rfind_from pat r (S i) with
      | Some j => Some j
      | None => if String.prefix pat s then Some i else None
      end
  end.

(** [s.find(pat)] and [s.rfind(pat)]: [-1] when absent. *)
Definition find (s pat : string) : Z :=
  match find_from pat s 0 with Some i => Z.of_nat i | None => (-1)%Z end.

Definition rfind (s pat : string) : Z :=
  match rfind_from pat s 0 with Some i => Z.of_nat i | None => (-1)%Z end.

(** [pat in s] *)
Definition str_in (pat s : string) : bool :=
  match find_from pat s 0 with Some _ => true | None => false end.

(** [s[a:b]] for [0 <= a <= b]. *)
Definition py_slice (s : string) (a b : Z) : string :=
  String.substring (Z.to_nat a) (Z.to_nat b - Z.to_nat a) s.

(** Lines 129-146: the markdown cleaning of the response text. *)
Definition clean_response (text : string) : string :=
  let response_text := strip text in
  let response_text :=
    if str_in "```json" response_text then
      let start := (find response_text "```json" + 7)%Z in
      let end_ := rfind response_text "```" in
      if (end_ >? start)%Z then strip (py_slice response_text start end_)
      else response_text
    else if str_in "```" response_text then
      let start := (find response_text "```" + 3)%Z in
      let end_ := rfind response_text "```" in
      if (end_ >? start)%Z then strip (py_slice response_text start end_)
      else response_text
    else response_text in
  strip response_text.

(** [re.search(r'\{.*\}', s, re.DOTALL)]: the leftmost match starts at the
    first ['{'] and, by greediness, ends at the last ['}'] after it. *)
Definition search_braces (s : string) : option string :=
  match find_from "{" s 0 with
  | None => None
  | Some i =>
      match rfind_from "}" s 0 with
      | Some j => if Nat.ltb i j then Some (String.substring i (S j - i) s) else None
      | None => None
      end
  end.

Fixpoint count_words (in_word : bool) (l : list Ascii.ascii) : nat :=
  match l with
  | [] => O
  | c :: r =>
      if is_space c then count_words false r
      else if in_word then count_words true r else S (count_words true r)
  end.

(** [len(s.split())] *)
Definition split_len (s : string) : Z :=
  Z.of_nat (count_words false (String.list_ascii_of_string s)).

Section InsightAgent.

Variable json_loads : string -> option json_value_kind.

(** Lines 129-170: cleaning, [json.loads], and the regex fallback (any
    exception of the second [json.loads] is caught). *)
Definition parse_insights (text : string) : option json_value_kind :=
  let response_text := clean_response text in
  match json_loads response_text with
  | Some v => Some v
  | None =>
      match search_braces response_text with
      | Some m => json_loads m
      | None => None
      end
  end.

(** Lines 93-198, the credit-manager effects and which report is built:
    [true] for the LLM report, [false] for [_generate_template_insights].
    A non-dict JSON value makes [insights_data.get] raise
    [AttributeError], caught by the outer [except]. *)
Definition _generate_llm_insights (prompt : string) (response : gen_result)
    (w : world) : option (world * bool) :=
  w ← track_request_start w;
  let fail := Some (track_usage 0 0 "insight_agent" false w, false) in
  match response with
  | GenRaises | GenNone | GenText EmptyString => fail
  | GenText text =>
      match parse_insights text with
      | None => fail
      | Some v =>
          let w := track_usage (split_len prompt * 2) (split_len text * 2)
                     "insight_agent" true w in
          match v with
          | JObject => Some (w, true)
          | JOther => Some (track_usage 0 0 "insight_agent" false w, false)
          end
      end
  end.

(** What the reply amounts to: [None] on every failure path. *)
Definition reply_outcome (response : gen_result) : option json_value_kind :=
  match response with
  | GenText EmptyString => None
  | GenText text => parse_insights text
  | _ => None
  end.

End InsightAgent.

Lemma track_usage_table i o c s v u :
  reachable v -> table v !! c = Some u ->
  table (track_usage i o c s v) !! c = Some (component_update i o s u).
Proof.
  intros Hr Hu. pose proof (reachable_inv v Hr) as (_ & _ & Hloc & _).
  unfold table in *. rewrite <- Hloc in *. rewrite track_usage_deref.
  unfold table_after. rewrite Hu. apply lookup_insert_eq.
Qed.

Lemma track_usage_call_times i o c s v :
  call_times (cm (track_usage i o c s v)) = call_times (cm v).
Proof. rewrite track_usage_cm. destruct s; reflexivity. Qed.


(** A parser that only accepts the JSON array [[1]]. *)
Definition json_list_only (s : string) : option json_value_kind :=
  if String.eqb s "[1]" then Some JOther else None.


(** ** The markdown cleaning *)

Lemma list_ascii_of_string_append a b :
  String.list_ascii_of_string (String.append a b) =
  String.list_ascii_of_string a ++ String.list_ascii_of_string b.
Proof. induction a as [|c a IH]; simpl; [reflexivity|]. rewrite IH. reflexivity. Qed.

Lemma lstrip_chars_idem l : lstrip_chars (lstrip_chars l) = lstrip_chars l.
Proof.
  induction l as [|c r IH]; simpl; [reflexivity|].
  destruct (is_space c) eqn:E; [exact IH|]. simpl. rewrite E. reflexivity.
Qed.

Lemma lstrip_chars_head l c r : lstrip_chars l = c :: r -> is_space c = false.
Proof.
  induction l as [|x l IH]; simpl; [discriminate|].
  destruct (is_space x) eqn:E; [exact IH|]. intros H. injection H as <- _. exact E.
Qed.

Lemma lstrip_chars_last l d :
  is_space d = false -> exists l', lstrip_chars (l ++ [d]) = l' ++ [d].
Proof.
  intros Hd. induction l as [|x l IH]; simpl.
  - rewrite Hd. exists []. reflexivity.
  - destruct (is_space x); [exact IH|]. exists (x :: l). reflexivity.
Qed.

Lemma strip_idem s : strip (strip s) = strip s.
Proof.
  unfold strip. rewrite String.list_ascii_of_string_of_list_ascii.
  f_equal. set (B := lstrip_chars (String.list_ascii_of_string s)).
  assert (HR : lstrip_chars (rev (lstrip_chars (rev B))) = rev (lstrip_chars (rev B))).
  { destruct B as [|x B'] eqn:EB; [reflexivity|].
    assert (Hx : is_space x = false)
      by (apply (lstrip_chars_head (String.list_ascii_of_string s) x B'); exact EB).
    simpl. destruct (lstrip_chars_last (rev B') x Hx) as [l' Hl'].
    rewrite Hl', rev_app_distr. simpl. rewrite Hx. reflexivity. }
  rewrite HR, rev_involutive, lstrip_chars_idem. reflexivity.
Qed.

Lemma prefix_append s t : String.prefix s (String.append s t) = true.
Proof.
  induction s as [|a s IH]; simpl.
  - destruct t; reflexivity.
  - destruct (Ascii.ascii_dec a a) as [_|n]; [exact IH | congruence].
Qed.

Lemma prefix_append_l a b s :
  String.prefix (String.append a b) s = true -> String.prefix a s = true.
Proof.
  revert s. induction a as [|x a IH]; intros s H.
  - destruct s; reflexivity.
  - destruct s as [|y s]; simpl in *; [discriminate|].
    destruct (Ascii.ascii_dec x y); [exact (IH _ H) | discriminate].
Qed.

Lemma find_from_prefix pat s i : String.prefix pat s = true -> find_from pat s i = Some i.
Proof. intros H. destruct s; cbn [find_from]; rewrite H; reflexivity. Qed.

Lemma find_from_append_l a b s i :
  find_from (String.append a b) s i <> None -> find_from a s i <> None.
Proof.
  revert i. induction s as [|c s IH]; intros i H.
  - cbn [find_from] in *. destruct (String.prefix (String.append a b) EmptyString) eqn:E.
    + rewrite (prefix_append_l _ _ _ E). discriminate.
    + contradiction.
  - cbn [find_from] in *. destruct (String.prefix (String.append a b) (String c s)) eqn:E.
    + rewrite (prefix_append_l _ _ _ E). discriminate.
    + destruct (String.prefix a (String c s)); [discriminate|]. exact (IH _ H).
Qed.

Lemma rfind_from_append pat s1 s2 i j :
  rfind_from pat s2 (i + String.length s1) = Some j ->
  rfind_from pat (String.append s1 s2) i = Some j.
Proof.
  revert i. induction s1 as [|c s1 IH]; intros i H; simpl in H.
  - rewrite Nat.add_0_r in H. exact H.
  - simpl. rewrite (IH (S i)); [reflexivity|].
    rewrite <- H. f_equal. lia.
Qed.

Lemma substring_append_l s t : String.substring 0 (String.length s) (String.append s t) = s.
Proof. induction s as [|a s IH]; simpl; [destruct t; reflexivity | rewrite IH; reflexivity]. Qed.

(** X10: the cleaning gives back the payload of a [```json] fence: when
    the stripped reply is [```json], a non-empty payload [p] and a closing
    [```], the text handed to [json.loads] is [p.strip()]. *)
Theorem clean_response_json_fence text p :
  strip text = String.append "```json" (String.append p "```") ->
  p <> EmptyString ->
  clean_response text = strip p.
Proof.
  intros Ht Hp. unfold clean_response. cbv zeta. rewrite Ht.
  set (X := String.append "```json" (String.append p "```")).
  assert (Hf : find_from "```json" X 0 = Some 0%nat) by (apply find_from_prefix, prefix_append).
  assert (Hr : rfind_from "```" X 0 = Some (7 + String.length p)%nat).
  { unfold X. apply rfind_from_append. apply rfind_from_append. simpl. reflexivity. }
  unfold str_in, find, rfind. rewrite Hf, Hr.
  assert (Hlt : (Z.of_nat (7 + String.length p) >? Z.of_nat 0 + 7)%Z = true).
  { destruct p as [|a q]; [congruence|]. apply Z.gtb_lt. simpl String.length. lia. }
  rewrite Hlt, strip_idem. f_equal.
  unfold py_slice. rewrite Nat2Z.id.
  replace (Z.to_nat (Z.of_nat 0 + 7)) with 7%nat by reflexivity.
  replace (7 + String.length p - 7)%nat with (String.length p) by lia.
  unfold X. simpl. exact (substring_append_l p "```").
Qed.

Lemma clean_response_json_fence_witness :
  clean_response "  ```json {} ```  " = "{}".
Proof.
  rewrite (clean_response_json_fence "  ```json {} ```  " " {} ").
  - vm_compute. reflexivity.
  - vm_compute. reflexivity.
  - discriminate.
Defined.

(** X11: a reply whose stripped text contains no [```] is only stripped
    before [json.loads]. *)
Theorem clean_response_no_fence text :
  str_in "```" (strip text) = false -> clean_response text = strip text.
Proof.
  intros H. unfold clean_response. cbv zeta.
  assert (Hn : find_from "```" (strip text) 0 = None).
  { unfold str_in in H. destruct (find_from "```" (strip text) 0); [discriminate|reflexivity]. }
  assert (H2 : str_in "```json" (strip text) = false).
  { unfold str_in. destruct (find_from "```json" (strip text) 0) eqn:E; [|reflexivity].
    exfalso. apply (find_from_append_l "```" "json" (strip text) 0).
    - change (String.append "```" "json") with "```json". rewrite E. discriminate.
    - exact Hn. }
  rewrite H2, H. apply strip_idem.
Qed.

Lemma clean_response_no_fence_witness :
  clean_response " [1] " = "[1]".
Proof.
  rewrite (clean_response_no_fence " [1] ").
  - vm_compute. reflexivity.
  - vm_compute. reflexivity.
Defined.
